(** * Character-level encoding pipeline of [bin/lib.py]

    A shallow embedding of [legal_characters], [get_char_indices],
    [get_indices_char] and [gen_x_y], with the properties of the vocabulary,
    of text normalisation, of sequence alignment and of label coercion.

    The module is Python 2 code; a text is a byte string ([str]), embedded as
    [list ascii].  Python integers that are indices or lengths are embedded
    as [nat].  Exceptions are embedded in [result]; the module-level caches
    [CHAR_INDICES] and [INDICES_CHAR] are threaded explicitly ([globals]). *)

From stdpp Require Import gmap strings list sorting.
From Stdlib Require Import Ascii ZArith.

Local Open Scope char_scope.

(** ** Exceptions and the two monads *)

Inductive exception : Type :=
| KeyError
| ValueError.

Inductive result (A : Type) : Type :=
| Ok (a : A)
| Raise (e : exception).
Arguments Ok {A} a.
Arguments Raise {A} e.

Definition result_bind {A B} (r : result A) (k : A → result B) : result B :=
  match r with
  | Ok a => k a
  | Raise e => Raise e
  end.

Notation "'do' x <- r ; k" := (result_bind r (fun x => k))
  (at level 10, x name, r at level 100, k at level 200).

(** [map(f, l)] of Python 2 is eager: the first exception raised by [f]
    leaves the whole call. *)
Fixpoint map_result {A B} (f : A → result B) (l : list A) : result (list B) :=
  match l with
  | [] => Ok []
  | x :: l' =>
      do y <- f x;
      do ys <- map_result f l';
      Ok (y :: ys)
  end.

(** The module globals that the encoding path reads and writes
    (lines 18-19); [None] is Python's [None]. *)
Record globals : Type := Globals {
  CHAR_INDICES : option (gmap ascii nat);
  INDICES_CHAR : option (gmap nat ascii)
}.

(** A computation over the globals: an exception keeps the globals as they
    were when it was raised. *)
Definition M (A : Type) : Type := globals → result A * globals.

Definition M_ret {A} (a : A) : M A := λ g, (Ok a, g).

Definition M_bind {A B} (m : M A) (k : A → M B) : M B :=
  λ g, match m g with
       | (Ok a, g') => k a g'
       | (Raise e, g') => (Raise e, g')
       end.

Definition M_lift {A} (r : result A) : M A := λ g, (r, g).

Notation "'run' x <- m ; k" := (M_bind m (fun x => k))
  (at level 10, x name, m at level 100, k at level 200).

(** ** Python's [string] constants and [str] methods (C locale) *)

Definition str (s : string) : list ascii := String.list_ascii_of_string s.

Definition digits : list ascii := str "0123456789".
Definition lowercase : list ascii := str "abcdefghijklmnopqrstuvwxyz".
Definition uppercase : list ascii := str "ABCDEFGHIJKLMNOPQRSTUVWXYZ".
Definition letters : list ascii := lowercase ++ uppercase.
Definition punctuation : list ascii :=
  str "!" ++ ["034"] ++ str "#$%&'()*+,-./:;<=>?@[\]^_`{|}~".
(** [' \t\n\r\v\f'] *)
Definition whitespace : list ascii := [" "; "009"; "010"; "013"; "011"; "012"].
Definition printable : list ascii := digits ++ letters ++ punctuation ++ whitespace.

(** [x.lower()] on a one-byte [str]. *)
Definition lower (x : ascii) : ascii :=
  let n := nat_of_ascii x in
  if ((65 <=? n) && (n <=? 90))%nat then ascii_of_nat (n + 32) else x.

(** [\s] of [re] and the characters removed by [str.strip()]. *)
Definition isspace (x : ascii) : bool := bool_decide (x ∈ whitespace).

(** [re.sub(r'\s+', ' ', text)]: every maximal run of whitespace becomes one
    space.  [in_run] tells that the previous character belonged to a run
    whose replacement is already written. *)
Fixpoint sub_space_runs (in_run : bool) (text : list ascii) : list ascii :=
  match text with
  | [] => []
  | x :: text' =>
      if isspace x
      then (if in_run then [] else [" "]) ++ sub_space_runs true text'
      else x :: sub_space_runs false text'
  end.

(** [re.sub(pat, ' ', text)] for a one-character literal pattern. *)
Definition re_sub_char (pat : ascii) (text : list ascii) : list ascii :=
  (λ x, if decide (x = pat) then " " else x) <$> text.

Fixpoint lstrip (text : list ascii) : list ascii :=
  match text with
  | [] => []
  | x :: text' => if isspace x then lstrip text' else text
  end.

Definition rstrip (text : list ascii) : list ascii :=
  reverse (lstrip (reverse text)).

Definition strip (text : list ascii) : list ascii := rstrip (lstrip text).

(** ** Python sets, [sorted], [enumerate], [dict], [max] *)

(** [s.remove(x)] raises [KeyError] when [x] is not a member. *)
Definition set_remove (x : ascii) (s : gset ascii) : result (gset ascii) :=
  if decide (x ∈ s) then Ok (s ∖ {[x]}) else Raise KeyError.

Definition code (c : ascii) : nat := nat_of_ascii c.

Definition le_code (a b : ascii) : Prop := code a ≤ code b.

Global Instance le_code_dec : RelDecision le_code.
Proof. intros a b. unfold le_code. apply _. Defined.

(** [sorted(l)] on one-character strings: ascending byte values. *)
Definition sorted (l : list ascii) : list ascii := merge_sort le_code l.

Definition enumerate {A} (l : list A) : list (nat * A) := imap (λ i c, (i, c)) l.

(** [dict(pairs)]: a later pair overrides an earlier one with the same key. *)
Definition dict `{Countable K} {V} (pairs : list (K * V)) : gmap K V :=
  foldl (λ m p, <[p.1 := p.2]> m) ∅ pairs.

(** [d[k]] *)
Definition getitem `{Countable K} {V} (d : gmap K V) (k : K) : result V :=
  match d !! k with
  | Some v => Ok v
  | None => Raise KeyError
  end.

(** [d.keys()] *)
Definition keys `{Countable K} {V} (d : gmap K V) : list K := (map_to_list d).*1.

(** [max(l)] raises [ValueError] on the empty list. *)
Definition py_max (l : list nat) : result nat :=
  match l with
  | [] => Raise ValueError
  | x :: l' => Ok (foldl Nat.max x l')
  end.

(** ** [legal_characters], lines 140-144 *)

Definition legal_characters : result (gset ascii) :=
  let chars : gset ascii := list_to_set (printable ++ str "<>") in
  do chars <- set_remove "010" chars;
  do chars <- set_remove "013" chars;
  Ok chars.

(** [sorted(list(set(legal_characters())))], lines 149, 156 and 164. *)
Definition sorted_legal_characters : result (list ascii) :=
  do chars <- legal_characters;
  Ok (sorted (elements chars)).

(** ** [get_char_indices], lines 146-151 *)

Definition get_char_indices : M (gmap ascii nat) :=
  λ g,
    match CHAR_INDICES g with
    | None =>
        match sorted_legal_characters with
        | Ok chars =>
            let d := dict ((λ '(i, c), (c, i)) <$> enumerate chars) in
            (Ok d, Globals (Some d) (INDICES_CHAR g))
        | Raise e => (Raise e, g)
        end
    | Some d => (Ok d, g)
    end.

(** ** [get_indices_char], lines 153-158 *)

Definition get_indices_char : M (gmap nat ascii) :=
  λ g,
    match INDICES_CHAR g with
    | None =>
        match sorted_legal_characters with
        | Ok chars =>
            let d := dict ((λ '(i, c), (i, c)) <$> enumerate chars) in
            (Ok d, Globals (CHAR_INDICES g) (Some d))
        | Raise e => (Raise e, g)
        end
    | Some d => (Ok d, g)
    end.

(** ** The body of the loop of [gen_x_y] *)

(** Lines 173-182: the text is lower-cased, every character outside the
    legal set becomes a space, whitespace runs are collapsed, the ends are
    stripped, [<] and [>] become spaces and the sentinels are added.
    [legal_characters()] is called once per character, as in the lambda. *)
Definition normalize (text : list ascii) : result (list ascii) :=
  let text := lower <$> text in
  do text <- map_result
       (λ x, do legal <- legal_characters;
             Ok (if decide (x ∈ legal) then x else " ")) text;
  let text := sub_space_runs false text in
  let text := strip text in
  let text := re_sub_char "<" text in
  let text := re_sub_char ">" text in
  Ok ("<" :: text ++ [">"]).

(** Lines 170-189, with the two accumulators of the loop. *)
Fixpoint gen_x_y_loop (char_indices : gmap ascii nat)
    (uncleaned_text : list (list ascii))
    (cleaned_text_chars : list (list ascii))
    (cleaned_text_indices : list (list nat))
  : result (list (list ascii) * list (list nat)) :=
  match uncleaned_text with
  | [] => Ok (cleaned_text_chars, cleaned_text_indices)
  | text :: rest =>
      do text <- normalize text;
      do text_indices <- map_result (getitem char_indices) text;
      gen_x_y_loop char_indices rest
        (cleaned_text_chars ++ [text]) (cleaned_text_indices ++ [text_indices])
  end.

(** ** [pad_sequences] *)

(** [s[-n:]]: the last [n] elements, all of [s] when it is shorter; [-0] is
    [0], so [s[-0:]] is all of [s]. *)
Definition slice_last {A} (n : nat) (s : list A) : list A :=
  match n with
  | 0 => s
  | _ => drop (length s - n) s
  end.

(** [row[-len(trunc):] = trunc] on a one-dimensional array: the shapes must
    agree, except that a single element is broadcast. *)
Definition assign_last (row trunc : list nat) : result (list nat) :=
  let target := slice_last (length trunc) row in
  let kept := take (length row - length target) row in
  if decide (length target = length trunc) then Ok (kept ++ trunc)
  else match trunc with
       | [v] => Ok (kept ++ replicate (length target) v)
       | _ => Raise ValueError
       end.

(** One row of the matrix: filled with [value], then overwritten at its end
    by the truncated sequence; an empty sequence leaves the row as it is. *)
Definition pad_row (maxlen value : nat) (s : list nat) : result (list nat) :=
  let row := replicate maxlen value in
  match s with
  | [] => Ok row
  | _ => assign_last row (slice_last maxlen s)
  end.

(** Modelled from the spec: [pad_sequences] is
    [keras.preprocessing.sequence.pad_sequences], imported at line 13 and not
    part of the repository.  It is the [align] operation of the spec, applied
    to every sequence of the batch, as Keras computes it with the defaults
    [padding='pre'] and [truncating='pre'] that line 192 leaves in place:
    the result has one row of width [maxlen] per sequence, a sequence longer
    than [maxlen] loses its front ([s[-maxlen:]]) and a shorter one is
    written at the end of a row filled with [value].  The entries are
    [int32]; every entry here is at most the vocabulary size. *)
Definition pad_sequences (sequences : list (list nat)) (maxlen value : nat)
  : result (list (list nat)) :=
  map_result (pad_row maxlen value) sequences.

(** ** [numpy.array(y_list, dtype=bool)] *)

(** The label values: Python scalars. *)
Inductive pyval : Type :=
| PyNone
| PyBool (b : bool)
| PyInt (n : Z)
| PyStr (s : list ascii).

(** Python's truth value of a scalar. *)
Definition truth (v : pyval) : bool :=
  match v with
  | PyNone => false
  | PyBool b => b
  | PyInt n => negb (n =? 0)%Z
  | PyStr s => negb (length s =? 0)%nat
  end.

(** A boolean array of dimension zero or one. *)
Inductive bool_array : Type :=
| Scalar (b : bool)
| Vector (l : list bool).

(** Modelled from the spec: [numpy.array] is NumPy's constructor, not part
    of the repository.  With [dtype=bool] every element of a list of scalars
    is stored as its truth value, in order (the [LabelVector] of the spec);
    [None], the default of [y_list], gives the zero-dimensional [False]. *)
Definition numpy_array_bool (y_list : option (list pyval)) : bool_array :=
  match y_list with
  | None => Scalar false
  | Some l => Vector (truth <$> l)
  end.

(** ** [gen_x_y], lines 160-195 *)

(** The [value=] argument of line 192: [max(indices_char.keys())+1]. *)
Definition padding_value (indices_char : gmap nat ascii) : result nat :=
  do m <- py_max (keys indices_char);
  Ok (m + 1).

(** [x_maxlen] stands for [get_conf('x_maxlen')], the configured width. *)
Definition gen_x_y (uncleaned_text : list (list ascii))
    (y_list : option (list pyval)) (x_maxlen : nat)
  : M (list (list nat) * bool_array) :=
  run chars <- M_lift sorted_legal_characters;
  run char_indices <- get_char_indices;
  run indices_char <- get_indices_char;
  run cleaned <- M_lift (gen_x_y_loop char_indices uncleaned_text [] []);
  run value <- M_lift (padding_value indices_char);
  run x <- M_lift (pad_sequences cleaned.2 x_maxlen value);
  let y := numpy_array_bool y_list in
  M_ret (x, y).

(** The globals when the module has just been imported. *)
Definition init_globals : globals := Globals None None.

(** * Specification-level definitions *)

(** Closes a decidable closed goal by evaluation. *)
Ltac by_compute := apply (bool_decide_unpack _); vm_compute; exact I.

(** The value of [legal_characters()]. *)
Definition legal_set : gset ascii :=
  list_to_set (printable ++ str "<>") ∖ {["010"]} ∖ {["013"]}.

(** The value of [sorted(list(set(legal_characters())))]. *)
Definition vocab : list ascii := sorted (elements legal_set).

(** The two dictionaries, as built on first use. *)
Definition char_indices_dict : gmap ascii nat :=
  dict ((λ '(i, c), (c, i)) <$> enumerate vocab).
Definition indices_char_dict : gmap nat ascii :=
  dict ((λ '(i, c), (i, c)) <$> enumerate vocab).

(** A cache is either empty or holds the dictionary that the getter builds:
    nothing else in the module assigns it. *)
Definition cache_ok (g : globals) : Prop :=
  (∀ d, CHAR_INDICES g = Some d → d = char_indices_dict) ∧
  (∀ d, INDICES_CHAR g = Some d → d = indices_char_dict).

(** What line 174 does to one character. *)
Definition legalize (x : ascii) : ascii :=
  if decide (x ∈ legal_set) then x else " ".

(** The text after line 177: lower-cased, legalised, collapsed, stripped. *)
Definition cleaned (text : list ascii) : list ascii :=
  strip (sub_space_runs false (legalize <$> (lower <$> text))).

(** The text between the sentinels. *)
Definition body (text : list ascii) : list ascii :=
  re_sub_char ">" (re_sub_char "<" (cleaned text)).

Definition normalized (text : list ascii) : list ascii :=
  "<" :: body text ++ [">"].

(** The index of a character; [0] stands in outside the vocabulary, where
    [char_indices[x]] raises. *)
Definition index (c : ascii) : nat := default 0 (char_indices_dict !! c).

Definition encoded (text : list ascii) : list nat := index <$> normalized text.

(** The aligned row that [pad_row] yields for a positive width: the padding
    in front, then the tail of the sequence. *)
Definition aligned (maxlen value : nat) (s : list nat) : list nat :=
  replicate (maxlen - length s) value ++ drop (length s - maxlen) s.

(** Two spaces in a row somewhere in the text. *)
Fixpoint has_space_run (text : list ascii) : bool :=
  match text with
  | [] => false
  | a :: text' =>
      bool_decide (a = " " ∧ head text' = Some " ") || has_space_run text'
  end.

(** No run of two or more spaces, and no space at either end: a text that,
    once wrapped, has no space next to a sentinel. *)
Definition space_collapsed (text : list ascii) : Prop :=
  has_space_run text = false ∧ head text ≠ Some " " ∧ last text ≠ Some " ".

Global Instance space_collapsed_dec text : Decision (space_collapsed text).
Proof. unfold space_collapsed. apply _. Defined.

(** The values that the spec calls zero, empty or absent-like. *)
Definition falsy (v : pyval) : Prop :=
  v = PyNone ∨ v = PyBool false ∨ v = PyInt 0 ∨ v = PyStr [].

(** * The configuration and the batch name *)

(** ** [load_confs] and [get_conf], lines 22-62 *)






(** ** [get_batch_name], lines 65-77 *)



(** A character that ends up as whitespace before the runs are collapsed:
    whitespace itself, or a character whose lower case is not legal. *)
Definition blank (x : ascii) : Prop := isspace x = true ∨ lower x ∉ legal_set.

(** * Properties *)

(** ** Containers *)

Section dict_facts.
Context `{Countable K} {V : Type}.
Implicit Types (pairs : list (K * V)) (k : K) (v : V).

Lemma dict_snoc pairs k v :
  dict (pairs ++ [(k, v)]) = <[k := v]> (dict pairs).
Proof. unfold dict. by rewrite foldl_app. Qed.

Lemma dict_lookup_nodup pairs k v :
  NoDup pairs.*1 → dict pairs !! k = Some v ↔ (k, v) ∈ pairs.
Proof.
  induction pairs as [|[k' v'] pairs IH] using rev_ind.
  - intros _. unfold dict; simpl. rewrite lookup_empty. set_solver.
  - rewrite fmap_app, dict_snoc. simpl. intros Hnd.
    apply NoDup_app in Hnd as (Hnd & Hfresh & _).
    pose proof (IH Hnd) as IH'. rewrite lookup_insert, elem_of_app, list_elem_of_singleton.
    case_decide as Hk; simplify_eq.
    + split; [intros [= ->]; by right|].
      intros [Hin|[= ->]]; [|done].
      exfalso. apply (Hfresh k); [|by left].
      apply list_elem_of_fmap. by exists (k, v).
    + rewrite IH'. split; [by left|]. intros [?|[= ? ?]]; done.
Qed.
End dict_facts.

Lemma enumerate_elem_of {A} (l : list A) i (c : A) :
  (i, c) ∈ enumerate l ↔ l !! i = Some c.
Proof.
  unfold enumerate. rewrite elem_of_lookup_imap. split.
  - by intros (j & y & [= -> ->] & ?).
  - intros ?. by exists i, c.
Qed.

Lemma enumerate_fst {A} (l : list A) : (enumerate l).*1 = seq 0 (length l).
Proof.
  unfold enumerate. apply list_eq. intros i.
  rewrite list_lookup_fmap, list_lookup_imap.
  destruct (l !! i) as [c|] eqn:Hi; simpl.
  - symmetry. apply lookup_seq. split; [done|]. by eapply lookup_lt_Some.
  - symmetry. apply lookup_seq_ge. by apply lookup_ge_None.
Qed.

(** The decoding dictionary built from a list is the list itself, seen as
    a map from positions. *)
Lemma dict_enumerate_lookup (chars : list ascii) i :
  dict ((λ '(i, c), (i, c)) <$> enumerate chars) !! i = chars !! i.
Proof.
  assert (Hid : (λ '(i, c), (i, c)) <$> enumerate chars = enumerate chars).
  { rewrite <- (list_fmap_id (enumerate chars)) at 2.
    apply list_fmap_ext. by intros ? []. }
  rewrite Hid. apply option_eq. intros c.
  rewrite dict_lookup_nodup, enumerate_elem_of; [done|].
  rewrite enumerate_fst. apply NoDup_seq.
Qed.

(** The encoding dictionary built from a duplicate-free list sends each
    character to its position. *)
Lemma dict_enumerate_swap_lookup (chars : list ascii) c i :
  NoDup chars →
  dict ((λ '(i, c), (c, i)) <$> enumerate chars) !! c = Some i ↔ chars !! i = Some c.
Proof.
  intros Hnd. rewrite dict_lookup_nodup.
  - rewrite list_elem_of_fmap. split.
    + intros ([j d] & [= -> ->] & Hin). by apply enumerate_elem_of.
    + intros Hi. exists (i, c). split; [done|]. by apply enumerate_elem_of.
  - assert (Hk : ((λ '(i, c), (c, i)) <$> enumerate chars).*1 = chars).
    { apply list_eq. intros j. unfold enumerate.
      rewrite !list_lookup_fmap, list_lookup_imap. by destruct (chars !! j). }
    by rewrite Hk.
Qed.

(** ** The legal character set and the vocabulary *)

Lemma legal_set_size : size legal_set = 98.
Proof. by vm_compute. Qed.

Lemma legal_characters_ok : legal_characters = Ok legal_set.
Proof.
  unfold legal_characters, set_remove.
  rewrite decide_True by (by vm_compute). simpl.
  rewrite decide_True by (by vm_compute). done.
Qed.

Lemma sorted_legal_characters_ok : sorted_legal_characters = Ok vocab.
Proof. unfold sorted_legal_characters. rewrite legal_characters_ok. reflexivity. Qed.

Lemma elem_of_legal_set c :
  c ∈ legal_set ↔ c ∈ printable ∧ c ≠ "010" ∧ c ≠ "013".
Proof.
  unfold legal_set. rewrite !elem_of_difference, elem_of_list_to_set, elem_of_app.
  rewrite !elem_of_singleton. split; [|by intros (? & ? & ?); auto].
  intros [[[?|Hangle] ?] ?]; [done|]. split; [|done].
  apply elem_of_cons in Hangle as [->|Hangle]; [by_compute|].
  apply list_elem_of_singleton in Hangle as ->. by_compute.
Qed.

Global Instance le_code_total : Total le_code.
Proof. intros a b. unfold le_code. lia. Qed.

Global Instance le_code_trans : Transitive le_code.
Proof. intros a b c. unfold le_code. lia. Qed.

Lemma code_inj a b : code a = code b → a = b.
Proof.
  unfold code. intros Hab.
  by rewrite <- (ascii_nat_embedding a), <- (ascii_nat_embedding b), Hab.
Qed.

Lemma vocab_perm : vocab ≡ₚ elements legal_set.
Proof. apply merge_sort_Permutation. Qed.

Lemma elem_of_vocab c : c ∈ vocab ↔ c ∈ legal_set.
Proof. by rewrite vocab_perm, elem_of_elements. Qed.

Lemma vocab_nodup : NoDup vocab.
Proof. rewrite vocab_perm. apply NoDup_elements. Qed.

Lemma vocab_sorted : StronglySorted le_code vocab.
Proof. apply StronglySorted_merge_sort; apply _. Qed.

Lemma vocab_length : length vocab = 98.
Proof. by rewrite vocab_perm, <- legal_set_size. Qed.

(** In a sorted list without duplicates, positions and byte values are in
    the same strict order. *)
Lemma sorted_nodup_lookup_lt (l : list ascii) i j a b :
  StronglySorted le_code l → NoDup l →
  l !! i = Some a → l !! j = Some b → i < j → code a < code b.
Proof.
  intros Hs. revert i j. induction Hs as [|x l Hs IH Hall]; intros i j Hnd Hi Hj Hij.
  - by rewrite lookup_nil in Hi.
  - apply NoDup_cons in Hnd as [Hx Hnd].
    destruct j as [|j]; [lia|]. simpl in Hj.
    destruct i as [|i]; simpl in Hi.
    + injection Hi as ->.
      assert (Hb : b ∈ l) by (by eapply list_elem_of_lookup_2).
      rewrite Forall_forall in Hall. pose proof (Hall b Hb) as Hle.
      unfold le_code in Hle.
      destruct (decide (code a = code b)) as [Heq|]; [|lia].
      apply code_inj in Heq as ->. done.
    + eapply IH; eauto with lia.
Qed.

Lemma vocab_lookup_lt i j a b :
  vocab !! i = Some a → vocab !! j = Some b → (i < j ↔ code a < code b).
Proof.
  intros Hi Hj. split.
  - intros Hij.
    eapply (sorted_nodup_lookup_lt vocab i j); eauto using vocab_sorted, vocab_nodup.
  - intros Hab. destruct (decide (i < j)) as [|Hge]; [done|].
    destruct (decide (i = j)) as [->|Hne].
    { rewrite Hi in Hj. injection Hj as ->. lia. }
    assert (code b < code a); [|lia].
    eapply (sorted_nodup_lookup_lt vocab j i); eauto using vocab_sorted, vocab_nodup with lia.
Qed.

Lemma char_indices_lookup c i :
  char_indices_dict !! c = Some i ↔ vocab !! i = Some c.
Proof. apply dict_enumerate_swap_lookup, vocab_nodup. Qed.

Lemma indices_char_lookup i : indices_char_dict !! i = vocab !! i.
Proof. apply dict_enumerate_lookup. Qed.

Lemma char_indices_legal c :
  c ∈ legal_set → ∃ i, char_indices_dict !! c = Some i.
Proof.
  intros Hc. apply elem_of_vocab, list_elem_of_lookup in Hc as [i Hi].
  exists i. by apply char_indices_lookup.
Qed.

Lemma char_indices_dict_eq :
  dict ((λ '(i, c), (c, i)) <$> enumerate vocab) = char_indices_dict.
Proof. reflexivity. Qed.

Lemma indices_char_dict_eq :
  dict ((λ '(i, c), (i, c)) <$> enumerate vocab) = indices_char_dict.
Proof. reflexivity. Qed.

Global Opaque legal_set vocab char_indices_dict indices_char_dict.

(** ** The caches *)

Lemma init_globals_ok : cache_ok init_globals.
Proof. split; intros d Hd; discriminate Hd. Qed.

Lemma get_char_indices_run g :
  cache_ok g →
  ∃ g', get_char_indices g = (Ok char_indices_dict, g') ∧ cache_ok g'.
Proof.
  intros [Hc Hi]. unfold get_char_indices.
  destruct (CHAR_INDICES g) as [d|] eqn:Hg.
  - rewrite (Hc d eq_refl). exists g. split; [reflexivity|].
    split; [intros d' Hd'; apply Hc; congruence|exact Hi].
  - rewrite sorted_legal_characters_ok, char_indices_dict_eq.
    eexists. split; [reflexivity|].
    split; [|exact Hi].
    intros d' Hd'. change (Some char_indices_dict = Some d') in Hd'.
    symmetry. exact (Some_inj _ _ Hd').
Qed.

Lemma get_indices_char_run g :
  cache_ok g →
  ∃ g', get_indices_char g = (Ok indices_char_dict, g') ∧ cache_ok g'.
Proof.
  intros [Hc Hi]. unfold get_indices_char.
  destruct (INDICES_CHAR g) as [d|] eqn:Hg.
  - rewrite (Hi d eq_refl). exists g. split; [reflexivity|].
    split; [exact Hc|intros d' Hd'; apply Hi; congruence].
  - rewrite sorted_legal_characters_ok, indices_char_dict_eq.
    eexists. split; [reflexivity|].
    split; [exact Hc|].
    intros d' Hd'. change (Some indices_char_dict = Some d') in Hd'.
    symmetry. exact (Some_inj _ _ Hd').
Qed.

(** ** Normalisation *)

Lemma map_result_ok {A B} (f : A → result B) (g : A → B) (l : list A) :
  (∀ x, x ∈ l → f x = Ok (g x)) → map_result f l = Ok (g <$> l).
Proof.
  induction l as [|x l IH]; intros Hf; [done|]. simpl.
  rewrite Hf by left. simpl. rewrite IH; [done|].
  intros y Hy. apply Hf. by right.
Qed.

Lemma normalize_ok text : normalize text = Ok (normalized text).
Proof.
  unfold normalize.
  rewrite (map_result_ok _ legalize); [done|].
  intros x _. by rewrite legal_characters_ok.
Qed.

Lemma space_legal : " " ∈ legal_set.
Proof. by_compute. Qed.

Lemma lt_legal : "<" ∈ legal_set.
Proof. by_compute. Qed.

Lemma gt_legal : ">" ∈ legal_set.
Proof. by_compute. Qed.

Lemma legalize_legal x : legalize x ∈ legal_set.
Proof. unfold legalize. case_decide; [done|]. apply space_legal. Qed.

Lemma elem_of_sub_space_runs b x text :
  x ∈ sub_space_runs b text → x = " " ∨ x ∈ text.
Proof.
  revert b. induction text as [|y text IH]; intros b; simpl; [set_solver|].
  destruct (isspace y).
  - rewrite elem_of_app. intros [Hx|Hx].
    + destruct b; [by apply elem_of_nil in Hx|].
      apply list_elem_of_singleton in Hx. by left.
    + destruct (IH _ Hx); set_solver.
  - rewrite elem_of_cons. intros [->|Hx]; [set_solver|].
    destruct (IH _ Hx); set_solver.
Qed.

Lemma lstrip_suffix text : lstrip text `suffix_of` text.
Proof.
  induction text as [|x text IH]; simpl; [done|].
  destruct (isspace x); [by apply suffix_cons_r|done].
Qed.

Lemma rstrip_prefix text : rstrip text `prefix_of` text.
Proof.
  unfold rstrip. destruct (lstrip_suffix (reverse text)) as [k Hk].
  exists (reverse k).
  by rewrite <- reverse_app, <- Hk, reverse_involutive.
Qed.

Lemma elem_of_strip x text : x ∈ strip text → x ∈ text.
Proof.
  unfold strip. intros Hx.
  destruct (rstrip_prefix (lstrip text)) as [k Hk].
  destruct (lstrip_suffix text) as [k' Hk'].
  rewrite Hk', Hk. set_solver.
Qed.

Lemma elem_of_re_sub_char pat x text :
  x ∈ re_sub_char pat text → x = " " ∨ (x ≠ pat ∧ x ∈ text).
Proof.
  unfold re_sub_char. rewrite list_elem_of_fmap.
  intros (y & -> & Hy). case_decide; [by left|by right].
Qed.

Lemma elem_of_cleaned x text : x ∈ cleaned text → x ∈ legal_set.
Proof.
  unfold cleaned. intros Hx%elem_of_strip.
  apply elem_of_sub_space_runs in Hx as [->|Hx]; [apply space_legal|].
  apply list_elem_of_fmap in Hx as (y & -> & _). apply legalize_legal.
Qed.

Lemma elem_of_body x text :
  x ∈ body text → x ∈ legal_set ∧ x ≠ "<" ∧ x ≠ ">".
Proof.
  unfold body. intros Hx.
  apply elem_of_re_sub_char in Hx as [->|[Hgt Hx]].
  { split; [apply space_legal|done]. }
  apply elem_of_re_sub_char in Hx as [->|[Hlt Hx]].
  { split; [apply space_legal|done]. }
  split; [by eapply elem_of_cleaned|done].
Qed.

Lemma elem_of_normalized x text : x ∈ normalized text → x ∈ legal_set.
Proof.
  unfold normalized. rewrite elem_of_cons, elem_of_app, list_elem_of_singleton.
  intros [->|[Hx| ->]]; [apply lt_legal| |apply gt_legal].
  by apply elem_of_body in Hx as [? _].
Qed.

(** ** Encoding *)

Lemma getitem_legal c :
  c ∈ legal_set → getitem char_indices_dict c = Ok (index c).
Proof.
  intros [i Hi]%char_indices_legal. unfold getitem, index. by rewrite Hi.
Qed.

Lemma index_lookup c :
  c ∈ legal_set → indices_char_dict !! index c = Some c.
Proof.
  intros [i Hi]%char_indices_legal. unfold index. rewrite Hi. simpl.
  rewrite indices_char_lookup. by apply char_indices_lookup.
Qed.

Lemma index_lt c : c ∈ legal_set → index c < 98.
Proof.
  intros Hc. rewrite <- vocab_length. eapply lookup_lt_Some.
  rewrite <- indices_char_lookup. by apply index_lookup.
Qed.

Lemma encode_normalized text :
  map_result (getitem char_indices_dict) (normalized text) = Ok (encoded text).
Proof.
  apply map_result_ok. intros x Hx. apply getitem_legal.
  by apply (elem_of_normalized x text).
Qed.

Lemma gen_x_y_loop_ok texts chars_acc indices_acc :
  gen_x_y_loop char_indices_dict texts chars_acc indices_acc
  = Ok (chars_acc ++ (normalized <$> texts), indices_acc ++ (encoded <$> texts)).
Proof.
  revert chars_acc indices_acc.
  induction texts as [|t texts IH]; intros chars_acc indices_acc;
    cbn [gen_x_y_loop fmap list_fmap].
  - by rewrite !app_nil_r.
  - rewrite normalize_ok. cbn [result_bind].
    rewrite encode_normalized. cbn [result_bind].
    rewrite IH. by rewrite <- !app_assoc.
Qed.

(** ** Alignment *)

Lemma slice_last_pos {A} n (s : list A) :
  1 ≤ n → slice_last n s = drop (length s - n) s.
Proof. intros Hn. destruct n; [lia|done]. Qed.

Lemma assign_last_fits row trunc :
  1 ≤ length trunc ≤ length row →
  assign_last row trunc = Ok (take (length row - length trunc) row ++ trunc).
Proof.
  intros Hlen. unfold assign_last.
  rewrite slice_last_pos by lia. rewrite length_drop.
  rewrite decide_True by lia. do 3 f_equal. lia.
Qed.

Lemma pad_row_aligned maxlen value s :
  1 ≤ maxlen → pad_row maxlen value s = Ok (aligned maxlen value s).
Proof.
  intros Hpos. unfold pad_row, aligned.
  destruct s as [|i s]; [by rewrite Nat.sub_0_r, app_nil_r|].
  rewrite slice_last_pos by done.
  set (s' := i :: s). assert (1 ≤ length s') as Hs' by (simpl; lia).
  clearbody s'. clear i s.
  rewrite assign_last_fits by (rewrite length_drop, length_replicate; lia).
  rewrite length_replicate, length_drop, take_replicate.
  do 3 f_equal. lia.
Qed.

Lemma aligned_length maxlen value s : length (aligned maxlen value s) = maxlen.
Proof. unfold aligned. rewrite length_app, length_replicate, length_drop. lia. Qed.

Lemma aligned_last maxlen value s i :
  1 ≤ maxlen → last s = Some i → last (aligned maxlen value s) = Some i.
Proof.
  intros Hpos Hlast. unfold aligned.
  rewrite last_lookup in Hlast. rewrite last_lookup.
  assert (0 < length s) as Hs.
  { destruct s; [done|simpl; lia]. }
  rewrite length_app, length_replicate, length_drop.
  rewrite lookup_app_r by (rewrite length_replicate; lia).
  rewrite length_replicate, lookup_drop. rewrite <- Hlast. f_equal. lia.
Qed.

Lemma pad_sequences_aligned sequences maxlen value :
  1 ≤ maxlen →
  pad_sequences sequences maxlen value = Ok (aligned maxlen value <$> sequences).
Proof.
  intros Hpos. apply map_result_ok. intros s _. by apply pad_row_aligned.
Qed.

Lemma assign_last_not_key_error row trunc : assign_last row trunc ≠ Raise KeyError.
Proof.
  unfold assign_last. case_decide; [done|]. by destruct trunc as [|? [|? ?]].
Qed.

Lemma map_result_raise {A B} (f : A → result B) l e :
  map_result f l = Raise e → ∃ x, x ∈ l ∧ f x = Raise e.
Proof.
  induction l as [|x l IH]; simpl; [done|].
  destruct (f x) as [y|e'] eqn:Hx; simpl.
  - destruct (map_result f l) as [ys|e'']; simpl; [done|].
    intros [= ->]. destruct IH as (z & ? & ?); [done|]. exists z. split; [by right|done].
  - intros [= ->]. exists x. split; [by left|done].
Qed.

Lemma pad_sequences_not_key_error sequences maxlen value :
  pad_sequences sequences maxlen value ≠ Raise KeyError.
Proof.
  intros (s & _ & Hs)%map_result_raise. unfold pad_row in Hs.
  destruct s; [done|]. by apply assign_last_not_key_error in Hs.
Qed.

(** ** The padding value *)

Lemma foldl_max_spec l x :
  (foldl Nat.max x l = x ∨ foldl Nat.max x l ∈ l) ∧
  x ≤ foldl Nat.max x l ∧ ∀ y, y ∈ l → y ≤ foldl Nat.max x l.
Proof.
  revert x. induction l as [|z l IH]; intros x; simpl.
  - split; [by left|]. split; [done|]. by intros ? ?%elem_of_nil.
  - destruct (IH (x `max` z)) as (Hin & Hle & Hall).
    split; [|split; [lia|]].
    + destruct Hin as [Heq|Hin]; [|right; by right].
      rewrite Heq. destruct (Nat.max_spec x z) as [[_ ->]|[_ ->]]; [right; by left|by left].
    + intros y [->|Hy]%elem_of_cons; [lia|by apply Hall].
Qed.

Lemma py_max_spec l :
  l ≠ [] → ∃ m, py_max l = Ok m ∧ m ∈ l ∧ ∀ y, y ∈ l → y ≤ m.
Proof.
  destruct l as [|x l]; [done|]. intros _. simpl.
  destruct (foldl_max_spec l x) as (Hin & Hle & Hall).
  eexists. split; [done|]. split.
  - destruct Hin as [->|Hin]; [by left|by right].
  - intros y [->|Hy]%elem_of_cons; [done|by apply Hall].
Qed.

Lemma elem_of_keys_indices_char i : i ∈ keys indices_char_dict ↔ i < 98.
Proof.
  unfold keys. rewrite list_elem_of_fmap. rewrite <- vocab_length. split.
  - intros ([j c] & -> & Hjc). apply elem_of_map_to_list in Hjc.
    rewrite indices_char_lookup in Hjc. by eapply lookup_lt_Some.
  - intros [c Hc]%lookup_lt_is_Some. exists (i, c). split; [done|].
    apply elem_of_map_to_list. by rewrite indices_char_lookup.
Qed.

Lemma padding_value_ok : padding_value indices_char_dict = Ok 98.
Proof.
  unfold padding_value.
  destruct (py_max_spec (keys indices_char_dict)) as (m & -> & Hin & Hmax).
  { intros Hnil. assert (97 ∈ keys indices_char_dict) as Hin
      by (apply elem_of_keys_indices_char; lia).
    rewrite Hnil in Hin. by apply elem_of_nil in Hin. }
  apply elem_of_keys_indices_char in Hin.
  assert (97 ≤ m) by (apply Hmax, elem_of_keys_indices_char; lia).
  simpl. f_equal. lia.
Qed.

(** ** The whole of [gen_x_y] *)

(** With caches that are empty or properly filled, a call of [gen_x_y] is the
    alignment of the encoded texts, paired with the label array. *)
Lemma gen_x_y_run texts y_list maxlen g :
  cache_ok g →
  ∃ g', cache_ok g' ∧
    gen_x_y texts y_list maxlen g
    = (do x <- pad_sequences (encoded <$> texts) maxlen 98;
       Ok (x, numpy_array_bool y_list), g').
Proof.
  intros Hg. unfold gen_x_y, M_bind, M_lift, M_ret.
  rewrite sorted_legal_characters_ok.
  destruct (get_char_indices_run g Hg) as (g1 & -> & Hg1).
  destruct (get_indices_char_run g1 Hg1) as (g2 & -> & Hg2).
  rewrite gen_x_y_loop_ok, padding_value_ok. cbn [snd app].
  exists g2. split; [done|].
  by destruct (pad_sequences (encoded <$> texts) maxlen 98).
Qed.

Lemma char_indices_size : size char_indices_dict = 98.
Proof. by vm_compute. Qed.

Lemma gen_x_y_returns texts y_list L g :
  1 ≤ L → cache_ok g →
  ∃ g', cache_ok g' ∧
    gen_x_y texts y_list L g
    = (Ok (aligned L 98 <$> (encoded <$> texts), numpy_array_bool y_list), g').
Proof.
  intros Hpos Hg.
  destruct (gen_x_y_run texts y_list L g Hg) as (g' & Hg' & ->).
  exists g'. split; [done|]. by rewrite pad_sequences_aligned.
Qed.

Lemma encoded_last text : last (encoded text) = Some (index ">").
Proof.
  unfold encoded, normalized.
  rewrite fmap_last, app_comm_cons, last_snoc. done.
Qed.

(** ** Whitespace of the cleaned text *)

Lemma isspace_space : isspace " " = true.
Proof. done. Qed.

Lemma has_space_run_cons a text :
  has_space_run (a :: text) = false ↔
  ¬ (a = " " ∧ head text = Some " ") ∧ has_space_run text = false.
Proof.
  simpl. rewrite orb_false_iff, bool_decide_eq_false. done.
Qed.

Lemma has_space_run_app k text :
  has_space_run (k ++ text) = false →
  has_space_run k = false ∧ has_space_run text = false.
Proof.
  induction k as [|a k IH]; [done|].
  rewrite <- app_comm_cons, !has_space_run_cons. intros [Hhd Htl].
  destruct (IH Htl) as [Hk Ht]. repeat split; [|done..].
  intros [-> Hk']. apply Hhd. split; [done|]. by destruct k.
Qed.

(** After [re.sub(r'\s+', ' ', text)] the only whitespace left is single
    spaces; within a run the output does not start with a space. *)
Lemma sub_space_runs_spec b text :
  has_space_run (sub_space_runs b text) = false ∧
  (b = true → head (sub_space_runs b text) ≠ Some " ").
Proof.
  revert b. induction text as [|x text IH]; intros b; [done|].
  cbn [sub_space_runs]. destruct (isspace x) eqn:Hx.
  - destruct (IH true) as [Hrun Hhd]. destruct b; cbn [app]; [done|].
    split; [|done]. apply has_space_run_cons. split; [|done].
    intros [_ ?]. by apply Hhd.
  - destruct (IH false) as [Hrun _].
    assert (x ≠ " ") by (intros ->; by rewrite isspace_space in Hx).
    split.
    + apply has_space_run_cons. split; [by intros [? _]|done].
    + intros _. simpl. congruence.
Qed.

Lemma lstrip_head text x : head (lstrip text) = Some x → isspace x = false.
Proof.
  induction text as [|y text IH]; simpl; [done|].
  destruct (isspace y) eqn:Hy; [done|]. simpl. congruence.
Qed.

Lemma rstrip_last text x : last (rstrip text) = Some x → isspace x = false.
Proof. unfold rstrip. rewrite last_reverse. apply lstrip_head. Qed.

Lemma prefix_head (k text : list ascii) x :
  k `prefix_of` text → head k = Some x → head text = Some x.
Proof. intros [k' ->]. by destruct k. Qed.

Lemma strip_collapsed text :
  has_space_run text = false → space_collapsed (strip text).
Proof.
  intros Hrun. unfold strip.
  destruct (lstrip_suffix text) as [k1 Hk1].
  pose proof (rstrip_prefix (lstrip text)) as Hpre.
  destruct Hpre as [k2 Hk2].
  rewrite Hk1, Hk2 in Hrun.
  apply has_space_run_app in Hrun as [_ Hrun].
  apply has_space_run_app in Hrun as [Hrun _].
  split; [done|]. split.
  - intros Hhd. apply (prefix_head _ (lstrip text)) in Hhd; [|by exists k2].
    apply lstrip_head in Hhd. by rewrite isspace_space in Hhd.
  - intros Hlast. apply rstrip_last in Hlast. by rewrite isspace_space in Hlast.
Qed.

Lemma cleaned_collapsed text : space_collapsed (cleaned text).
Proof. apply strip_collapsed, sub_space_runs_spec. Qed.

(** Lower-casing and legalising neither create nor destroy [<] and [>]. *)
Lemma lower_angle x c : c = "<" ∨ c = ">" → lower x = c → x = c.
Proof.
  intros Hc.
  destruct x as [[] [] [] [] [] [] [] []];
    (destruct Hc as [-> | ->]; vm_compute; congruence).
Qed.

Lemma cleaned_no_angle c text :
  c = "<" ∨ c = ">" → c ∉ text → c ∉ cleaned text.
Proof.
  intros Hc Hnot Hin. unfold cleaned in Hin.
  apply elem_of_strip, elem_of_sub_space_runs in Hin as [->|Hin].
  { by destruct Hc. }
  apply list_elem_of_fmap in Hin as (y & Hy & Hin).
  apply list_elem_of_fmap in Hin as (z & -> & Hz).
  unfold legalize in Hy. case_decide.
  - symmetry in Hy. apply lower_angle in Hy; [|done]. apply Hnot. by rewrite <- Hy.
  - subst. by destruct Hc.
Qed.

Lemma re_sub_char_absent pat text : pat ∉ text → re_sub_char pat text = text.
Proof.
  intros Hnot. unfold re_sub_char.
  rewrite <- (list_fmap_id text) at 2. apply list_fmap_ext.
  intros i x Hx. case_decide; [|done]. subst.
  exfalso. apply Hnot. by eapply list_elem_of_lookup_2.
Qed.

Lemma body_no_angle text :
  "<" ∉ text → ">" ∉ text → body text = cleaned text.
Proof.
  intros Hlt Hgt. unfold body.
  rewrite (re_sub_char_absent "<") by (apply cleaned_no_angle; auto).
  apply re_sub_char_absent, cleaned_no_angle; auto.
Qed.

(** * The claims *)

(** ** Alignment *)

(** C1. For a positive target width [L], [pad_row] (the spec's [align])
    returns a sequence of length [L] unchanged, keeps exactly the last [L]
    elements of a longer one, and puts [L - len(s)] copies of the padding
    value in front of a shorter one, whose elements follow in order. *)
Theorem pad_row_align (s : list nat) (L value : nat) :
  1 ≤ L →
  (length s = L → pad_row L value s = Ok s) ∧
  (L < length s → pad_row L value s = Ok (drop (length s - L) s)) ∧
  (length s < L → pad_row L value s = Ok (replicate (L - length s) value ++ s)).
Proof.
  intros Hpos. rewrite pad_row_aligned by done. unfold aligned.
  split; [|split]; intros Hlen; f_equal.
  - replace (L - length s) with 0 by lia.
    replace (length s - L) with 0 by lia. done.
  - replace (L - length s) with 0 by lia. done.
  - replace (length s - L) with 0 by lia. done.
Qed.

Lemma pad_row_align_witness :
  pad_row 3 9 [4; 5; 6] = Ok [4; 5; 6] ∧
  pad_row 3 9 [4; 5; 6; 7; 8] = Ok [6; 7; 8] ∧
  pad_row 3 9 [4] = Ok [9; 9; 4].
Proof.
  split; [|split].
  - destruct (pad_row_align [4; 5; 6] 3 9) as (Heq & _ & _); [lia|].
    apply Heq. reflexivity.
  - destruct (pad_row_align [4; 5; 6; 7; 8] 3 9) as (_ & Hlong & _); [lia|].
    apply Hlong. simpl. lia.
  - destruct (pad_row_align [4] 3 9) as (_ & _ & Hshort); [lia|].
    apply Hshort. simpl. lia.
Defined.

(** ** Normalisation *)

(** C2, as the spec states it, fails: nothing is collapsed or stripped
    after [<] and [>] have become spaces (lines 180-182).  The raw text
    [<a<>b] is normalised to [< a  b>], with a run of two spaces and a space
    next to the start sentinel. *)
Lemma normalize_not_recollapsed :
  ¬ (∀ text b, normalize text = Ok ("<" :: b ++ [">"]) → space_collapsed b).
Proof.
  intros Hall.
  assert (normalize (str "<a<>b") = Ok ("<" :: str " a  b" ++ [">"])) as Hn
    by (by vm_compute).
  apply Hall in Hn. revert Hn. apply (bool_decide_unpack _). by vm_compute.
Qed.

(** C2, amended.  For a raw text without [<] and [>], the text between the
    sentinels has no run of two or more spaces and no space next to a
    sentinel. *)
Theorem normalize_collapsed (text : list ascii) :
  "<" ∉ text → ">" ∉ text →
  ∃ b, normalize text = Ok ("<" :: b ++ [">"]) ∧ space_collapsed b.
Proof.
  intros Hlt Hgt. exists (body text). split; [apply normalize_ok|].
  rewrite body_no_angle by done. apply cleaned_collapsed.
Qed.

Lemma normalize_collapsed_witness :
  ∃ b, normalize (str "  Hello,   World! ") = Ok ("<" :: b ++ [">"])
       ∧ space_collapsed b.
Proof.
  apply (normalize_collapsed (str "  Hello,   World! "));
    apply (bool_decide_unpack _); vm_compute; exact I.
Defined.

(** C3. Every raw text is normalised, without failure, to a text that
    starts with [<], ends with [>] and has no [<] or [>] in between. *)
Theorem normalize_sentinels (text : list ascii) :
  ∃ b, normalize text = Ok ("<" :: b ++ [">"]) ∧ ("<" ∉ b) ∧ (">" ∉ b).
Proof.
  exists (body text). split; [apply normalize_ok|].
  split; intros Hin; apply elem_of_body in Hin as (_ & ? & ?); done.
Qed.

(** The empty text and a text of illegal bytes only give the two sentinels;
    upper case is folded and inner whitespace collapsed. *)
Example normalize_empty : normalize [] = Ok (str "<>").
Proof. by vm_compute. Qed.

Example normalize_all_illegal : normalize ["200"; "010"; "255"] = Ok (str "<>").
Proof. by vm_compute. Qed.

Example normalize_hello :
  normalize (str "Hello,   World!") = Ok (str "<hello, world!>").
Proof. by vm_compute. Qed.

(** ** The vocabulary *)

(** C4. The two dictionaries are inverse bijections between the legal
    character set and the indices below its size: every legal character is
    encoded and decoded back, every index below the size is taken, no index
    is taken twice, and the indices grow with the byte values. *)
Theorem vocabulary_bijection (g : globals) :
  cache_ok g →
  ∃ legal ci ic g1 g2,
    legal_characters = Ok legal ∧
    get_char_indices g = (Ok ci, g1) ∧
    get_indices_char g1 = (Ok ic, g2) ∧
    (∀ c, c ∈ legal → ∃ i, ci !! c = Some i ∧ ic !! i = Some c) ∧
    (∀ c i, ci !! c = Some i → c ∈ legal ∧ i < size legal) ∧
    (∀ i, i < size legal → ∃ c, c ∈ legal ∧ ci !! c = Some i) ∧
    (∀ c1 c2 i, ci !! c1 = Some i → ci !! c2 = Some i → c1 = c2) ∧
    (∀ c1 c2 i1 i2, ci !! c1 = Some i1 → ci !! c2 = Some i2 →
       (i1 < i2 ↔ code c1 < code c2)).
Proof.
  intros Hg.
  destruct (get_char_indices_run g Hg) as (g1 & Hci & Hg1).
  destruct (get_indices_char_run g1 Hg1) as (g2 & Hic & _).
  exists legal_set, char_indices_dict, indices_char_dict, g1, g2.
  split; [apply legal_characters_ok|]. do 2 (split; [done|]).
  rewrite legal_set_size, <- vocab_length.
  split; [|split; [|split; [|split]]].
  - intros c [i Hi]%char_indices_legal. exists i. split; [done|].
    rewrite indices_char_lookup. by apply char_indices_lookup.
  - intros c i Hi%char_indices_lookup. split.
    + by apply list_elem_of_lookup_2, elem_of_vocab in Hi.
    + by eapply lookup_lt_Some.
  - intros i [c Hc]%lookup_lt_is_Some. exists c. split.
    + by apply list_elem_of_lookup_2, elem_of_vocab in Hc.
    + by apply char_indices_lookup.
  - intros c1 c2 i H1%char_indices_lookup H2%char_indices_lookup. congruence.
  - intros c1 c2 i1 i2 H1%char_indices_lookup H2%char_indices_lookup.
    by apply vocab_lookup_lt.
Qed.

Lemma vocabulary_bijection_witness :
  ∃ legal ci ic g1 g2,
    legal_characters = Ok legal ∧
    get_char_indices init_globals = (Ok ci, g1) ∧
    get_indices_char g1 = (Ok ic, g2) ∧
    (∀ c, c ∈ legal → ∃ i, ci !! c = Some i ∧ ic !! i = Some c) ∧
    (∀ c i, ci !! c = Some i → c ∈ legal ∧ i < size legal) ∧
    (∀ i, i < size legal → ∃ c, c ∈ legal ∧ ci !! c = Some i) ∧
    (∀ c1 c2 i, ci !! c1 = Some i → ci !! c2 = Some i → c1 = c2) ∧
    (∀ c1 c2 i1 i2, ci !! c1 = Some i1 → ci !! c2 = Some i2 →
       (i1 < i2 ↔ code c1 < code c2)).
Proof.
  apply (vocabulary_bijection init_globals).
  split; intros d Hd; discriminate Hd.
Defined.

(** C5. The padding value passed to [pad_sequences] is the size of the
    vocabulary, one past its largest index, and is the index of no
    character. *)
Theorem padding_value_is_vocabulary_size (g : globals) :
  cache_ok g →
  ∃ ci ic g1 g2,
    get_char_indices g = (Ok ci, g1) ∧
    get_indices_char g1 = (Ok ic, g2) ∧
    padding_value ic = Ok (size ci) ∧
    (∃ c, ci !! c = Some (size ci - 1)) ∧
    (∀ c i, ci !! c = Some i → i < size ci).
Proof.
  intros Hg.
  destruct (get_char_indices_run g Hg) as (g1 & Hci & Hg1).
  destruct (get_indices_char_run g1 Hg1) as (g2 & Hic & _).
  exists char_indices_dict, indices_char_dict, g1, g2.
  do 2 (split; [done|]). rewrite char_indices_size.
  split; [apply padding_value_ok|]. split.
  - destruct (lookup_lt_is_Some_2 vocab 97) as [c Hc]; [rewrite vocab_length; lia|].
    exists c. by apply char_indices_lookup.
  - intros c i Hi%char_indices_lookup. rewrite <- vocab_length.
    by eapply lookup_lt_Some.
Qed.

Lemma padding_value_is_vocabulary_size_witness :
  ∃ ci ic g1 g2,
    get_char_indices init_globals = (Ok ci, g1) ∧
    get_indices_char g1 = (Ok ic, g2) ∧
    padding_value ic = Ok (size ci) ∧
    (∃ c, ci !! c = Some (size ci - 1)) ∧
    (∀ c i, ci !! c = Some i → i < size ci).
Proof.
  apply (padding_value_is_vocabulary_size init_globals).
  split; intros d Hd; discriminate Hd.
Defined.

(** ** The batch *)

(** C6, as the spec states it, fails: [gen_x_y] never compares the number
    of labels with the number of texts.  Two texts with one label are
    accepted: the call returns a matrix of two rows and a vector of one
    label. *)
Lemma gen_x_y_mismatch_accepted :
  ¬ (∀ texts labels L g,
       length labels ≠ length texts →
       ∃ e g', gen_x_y texts (Some labels) L g = (Raise e, g')).
Proof.
  intros Hall.
  destruct (Hall [str "a"; str "b"] [PyBool true] 10 init_globals)
    as (e & g' & Hraise); [simpl; lia|].
  destruct (gen_x_y_returns [str "a"; str "b"] (Some [PyBool true]) 10 init_globals)
    as (g'' & _ & Hok); [lia|apply init_globals_ok|].
  rewrite Hok in Hraise. discriminate Hraise.
Qed.

(** C6, amended.  [gen_x_y] performs no check between labels and texts: for
    every batch of texts, every list of labels of whatever length and every
    width [L >= 1] it returns normally, with one row per text and one entry
    per label. *)
Theorem gen_x_y_no_length_check (texts : list (list ascii))
    (labels : list pyval) (L : nat) (g : globals) :
  1 ≤ L → cache_ok g →
  ∃ x y g',
    gen_x_y texts (Some labels) L g = (Ok (x, Vector y), g') ∧
    length x = length texts ∧ length y = length labels.
Proof.
  intros Hpos Hg.
  destruct (gen_x_y_returns texts (Some labels) L g Hpos Hg) as (g' & _ & ->).
  eexists _, _, g'. split; [reflexivity|].
  by rewrite !length_fmap.
Qed.

Lemma gen_x_y_no_length_check_witness :
  ∃ x y g',
    gen_x_y [str "a"; str "b"] (Some [PyBool true]) 10 init_globals
    = (Ok (x, Vector y), g') ∧
    length x = 2 ∧ length y = 1.
Proof.
  apply (gen_x_y_no_length_check [str "a"; str "b"] [PyBool true] 10 init_globals).
  - lia.
  - split; intros d Hd; discriminate Hd.
Defined.

(** C7. For [N] texts and a width [L >= 1] the matrix has [N] rows, each of
    length [L], and the label vector has as many entries as there are
    labels; for the empty batch both are empty. *)
Theorem gen_x_y_shape (texts : list (list ascii)) (labels : list pyval)
    (L : nat) (g : globals) :
  1 ≤ L → cache_ok g →
  ∃ x y g',
    gen_x_y texts (Some labels) L g = (Ok (x, Vector y), g') ∧
    length x = length texts ∧
    (∀ row, row ∈ x → length row = L) ∧
    length y = length labels ∧
    (texts = [] → x = []) ∧ (labels = [] → y = []).
Proof.
  intros Hpos Hg.
  destruct (gen_x_y_returns texts (Some labels) L g Hpos Hg) as (g' & _ & ->).
  eexists _, _, g'. split; [reflexivity|].
  rewrite !length_fmap. split; [done|]. split; [|split; [done|]].
  - intros row (s & -> & _)%list_elem_of_fmap. apply aligned_length.
  - split; by intros ->.
Qed.

Lemma gen_x_y_shape_witness :
  ∃ x y g',
    gen_x_y [] (Some []) 10 init_globals = (Ok (x, Vector y), g') ∧
    length x = 0 ∧
    (∀ row, row ∈ x → length row = 10) ∧
    length y = 0 ∧
    (@nil (list ascii) = [] → x = []) ∧ (@nil pyval = [] → y = []).
Proof.
  apply (gen_x_y_shape [] [] 10 init_globals).
  - lia.
  - split; intros d Hd; discriminate Hd.
Defined.

(** C8. Every character of a normalised text is legal, so that the lookup
    of each of its characters in the encoding dictionary succeeds, and
    [gen_x_y] never leaves with a [KeyError]. *)
Theorem normalized_text_is_encodable (text : list ascii) (g : globals) :
  cache_ok g →
  ∃ legal ci g' n indices,
    legal_characters = Ok legal ∧
    get_char_indices g = (Ok ci, g') ∧
    normalize text = Ok n ∧
    (∀ c, c ∈ n → c ∈ legal) ∧
    map_result (getitem ci) n = Ok indices ∧
    length indices = length n ∧
    (∀ texts y_list L, (gen_x_y texts y_list L g).1 ≠ Raise KeyError).
Proof.
  intros Hg.
  destruct (get_char_indices_run g Hg) as (g' & Hci & _).
  exists legal_set, char_indices_dict, g', (normalized text), (encoded text).
  split; [apply legal_characters_ok|]. split; [done|].
  split; [apply normalize_ok|]. split; [intros c; apply elem_of_normalized|].
  split; [apply encode_normalized|]. split; [apply length_fmap|].
  intros texts y_list L.
  destruct (gen_x_y_run texts y_list L g Hg) as (g'' & _ & ->).
  cbn [fst].
  destruct (pad_sequences (encoded <$> texts) L 98) as [x|e] eqn:Hpad; [done|].
  cbn [result_bind]. intros [= ->].
  by apply pad_sequences_not_key_error in Hpad.
Qed.

Lemma normalized_text_is_encodable_witness :
  ∃ legal ci g' n indices,
    legal_characters = Ok legal ∧
    get_char_indices init_globals = (Ok ci, g') ∧
    normalize (str "Hi, <there>") = Ok n ∧
    (∀ c, c ∈ n → c ∈ legal) ∧
    map_result (getitem ci) n = Ok indices ∧
    length indices = length n ∧
    (∀ texts y_list L, (gen_x_y texts y_list L init_globals).1 ≠ Raise KeyError).
Proof.
  apply (normalized_text_is_encodable (str "Hi, <there>") init_globals).
  split; intros d Hd; discriminate Hd.
Defined.

(** ** Labels *)

(** C9. The label vector has one entry per label, the truth value of that
    label: false for the zero, empty and absent-like values and true for
    every other one; [[True, 0, "yes"]] gives [[true, false, true]]. *)
Theorem labels_truthiness (labels : list pyval) :
  ∃ y,
    numpy_array_bool (Some labels) = Vector y ∧
    length y = length labels ∧
    (∀ i v, labels !! i = Some v → y !! i = Some (truth v)) ∧
    (∀ v, truth v = false ↔ falsy v) ∧
    numpy_array_bool (Some [PyBool true; PyInt 0; PyStr (str "yes")])
    = Vector [true; false; true].
Proof.
  exists (truth <$> labels). split; [done|].
  split; [apply length_fmap|]. split; [|split; [|done]].
  - intros i v Hv. by rewrite list_lookup_fmap, Hv.
  - intros v. unfold falsy. destruct v as [|[]|n|[|c s]]; simpl.
    + split; [intros _; by left|done].
    + split; [done|]. intros [?|[?|[?|?]]]; discriminate.
    + split; [intros _; right; by left|done].
    + rewrite negb_false_iff, Z.eqb_eq. split.
      * intros ->. right; right; by left.
      * intros [?|[?|[?|?]]]; congruence.
    + split; [intros _; by do 3 right|done].
    + split; [done|]. intros [?|[?|[?|?]]]; discriminate.
Qed.

(** ** The end sentinel *)

(** C10. For a width [L >= 1] the last entry of every row of the matrix
    decodes to the end sentinel [>], whether the row was truncated, padded
    or left as it was. *)
Theorem last_column_is_end_sentinel (texts : list (list ascii))
    (y_list : option (list pyval)) (L : nat) (g : globals) :
  1 ≤ L → cache_ok g →
  ∃ x y g' ic g'',
    gen_x_y texts y_list L g = (Ok (x, y), g') ∧
    get_indices_char g' = (Ok ic, g'') ∧
    ∀ row, row ∈ x → ∃ i, last row = Some i ∧ ic !! i = Some ">".
Proof.
  intros Hpos Hg.
  destruct (gen_x_y_returns texts y_list L g Hpos Hg) as (g' & Hg' & ->).
  destruct (get_indices_char_run g' Hg') as (g'' & Hic & _).
  eexists _, _, g', indices_char_dict, g''.
  split; [reflexivity|]. split; [done|].
  intros row (s & -> & (text & -> & _)%list_elem_of_fmap)%list_elem_of_fmap.
  exists (index ">"). split.
  - apply aligned_last; [done|]. apply encoded_last.
  - apply index_lookup, gt_legal.
Qed.

Lemma last_column_is_end_sentinel_witness :
  ∃ x y g' ic g'',
    gen_x_y [str "Hello, World!"; str "Hi"] None 10 init_globals
    = (Ok (x, y), g') ∧
    get_indices_char g' = (Ok ic, g'') ∧
    ∀ row, row ∈ x → ∃ i, last row = Some i ∧ ic !! i = Some ">".
Proof.
  apply (last_column_is_end_sentinel [str "Hello, World!"; str "Hi"] None 10
           init_globals).
  - lia.
  - split; intros d Hd; discriminate Hd.
Defined.

(** * Further properties *)

(** ** What normalisation keeps and what it removes *)

Lemma sub_space_runs_length b text :
  length (sub_space_runs b text) ≤ length text.
Proof.
  revert b. induction text as [|x text IH]; intros b; simpl; [done|].
  destruct (isspace x).
  - rewrite length_app. pose proof (IH true). destruct b; simpl; lia.
  - simpl. pose proof (IH false). lia.
Qed.

Lemma strip_length text : length (strip text) ≤ length text.
Proof.
  unfold strip.
  pose proof (prefix_length _ _ (rstrip_prefix (lstrip text))).
  pose proof (suffix_length _ _ (lstrip_suffix text)). lia.
Qed.

(** X1. The normalised text has at least the two sentinels and is never
    longer than the raw text with the two sentinels. *)
Theorem normalize_length (text : list ascii) :
  ∃ n, normalize text = Ok n ∧ 2 ≤ length n ≤ length text + 2.
Proof.
  exists (normalized text). split; [apply normalize_ok|].
  unfold normalized, body, re_sub_char, cleaned. simpl.
  rewrite length_app, !length_fmap. simpl.
  pose proof (strip_length (sub_space_runs false (legalize <$> (lower <$> text)))).
  pose proof (sub_space_runs_length false (legalize <$> (lower <$> text))) as Hlen.
  rewrite !length_fmap in Hlen. lia.
Qed.

Lemma elem_of_sub_space_runs_strong b x text :
  x ∈ sub_space_runs b text → x = " " ∨ (x ∈ text ∧ isspace x = false).
Proof.
  revert b. induction text as [|y text IH]; intros b; simpl.
  { by intros ?%elem_of_nil. }
  destruct (isspace y) eqn:Hy.
  - rewrite elem_of_app. intros [Hx|Hx].
    + destruct b; [by apply elem_of_nil in Hx|].
      apply list_elem_of_singleton in Hx. by left.
    + destruct (IH _ Hx) as [?|[? ?]]; [by left|]. right. split; [by right|done].
  - rewrite elem_of_cons. intros [->|Hx]; [right; split; [by left|done]|].
    destruct (IH _ Hx) as [?|[? ?]]; [by left|]. right. split; [by right|done].
Qed.

Lemma lower_not_uppercase x : lower x ∉ uppercase.
Proof.
  destruct x as [[] [] [] [] [] [] [] []];
    apply (bool_decide_unpack _); vm_compute; exact I.
Qed.

Lemma lower_fixed x : x ∉ uppercase → lower x = x.
Proof.
  destruct x as [[] [] [] [] [] [] [] []]; intros Hx;
    first [reflexivity | exfalso; apply Hx; apply (bool_decide_unpack _); vm_compute; exact I].
Qed.

Lemma space_not_uppercase : " " ∉ uppercase.
Proof. apply (bool_decide_unpack _). vm_compute. exact I. Qed.

Lemma elem_of_cleaned_strong x text :
  x ∈ cleaned text →
  x ∈ legal_set ∧ (x ∉ uppercase) ∧ (isspace x = true → x = " ").
Proof.
  intros Hx. split; [by eapply elem_of_cleaned|].
  unfold cleaned in Hx.
  apply elem_of_strip, elem_of_sub_space_runs_strong in Hx as [->|[Hx Hsp]].
  { split; [apply space_not_uppercase|done]. }
  split; [|by rewrite Hsp].
  apply list_elem_of_fmap in Hx as (y & -> & Hy).
  apply list_elem_of_fmap in Hy as (z & -> & _).
  unfold legalize. case_decide; [apply lower_not_uppercase|apply space_not_uppercase].
Qed.

Lemma elem_of_normalized_strong x text :
  x ∈ normalized text → (x ∉ uppercase) ∧ (isspace x = true → x = " ").
Proof.
  unfold normalized, body.
  rewrite elem_of_cons, elem_of_app, list_elem_of_singleton.
  intros [->|[Hx| ->]].
  - split; [apply (bool_decide_unpack _); vm_compute; exact I|done].
  - apply elem_of_re_sub_char in Hx as [->|[_ Hx]].
    { split; [apply space_not_uppercase|done]. }
    apply elem_of_re_sub_char in Hx as [->|[_ Hx]].
    { split; [apply space_not_uppercase|done]. }
    by apply elem_of_cleaned_strong in Hx as (_ & ? & ?).
  - split; [apply (bool_decide_unpack _); vm_compute; exact I|done].
Qed.

(** X2. A normalised text holds no upper-case letter and no whitespace
    other than the space: the tab, the vertical tab and the form feed are
    legal characters, but none of them, and no upper-case letter, is ever
    encoded. *)
Theorem normalize_characters (text : list ascii) :
  ∃ n,
    normalize text = Ok n ∧
    ∀ c, c ∈ n → (c ∉ uppercase) ∧ (c ∈ whitespace → c = " ").
Proof.
  exists (normalized text). split; [apply normalize_ok|].
  intros c Hc. apply elem_of_normalized_strong in Hc as [Hup Hsp].
  split; [done|]. intros Hw. apply Hsp. unfold isspace. by apply bool_decide_eq_true.
Qed.

(** Filtering by a property that no whitespace character has commutes with
    every step of the cleaning. *)
Section filter_content.
Context (P : ascii → Prop) `{!∀ c, Decision (P c)}.
Hypothesis P_not_space : ∀ c, isspace c = true → ¬ P c.

Lemma filter_sub_space_runs b text :
  filter P (sub_space_runs b text) = filter P text.
Proof using P_not_space.
  revert b. induction text as [|x text IH]; intros b; simpl; [done|].
  destruct (isspace x) eqn:Hx.
  - rewrite filter_app, IH, (filter_cons_False _ x) by (by apply P_not_space).
    destruct b; [done|].
    by rewrite filter_cons_False by (by apply P_not_space).
  - destruct (decide (P x)).
    + rewrite !filter_cons_True by done. by rewrite IH.
    + rewrite !filter_cons_False by done. by rewrite IH.
Qed.

Lemma filter_lstrip text : filter P (lstrip text) = filter P text.
Proof using P_not_space.
  induction text as [|x text IH]; simpl; [done|].
  destruct (isspace x) eqn:Hx; [|done].
  by rewrite filter_cons_False by (by apply P_not_space).
Qed.

Lemma filter_strip text : filter P (strip text) = filter P text.
Proof using P_not_space.
  unfold strip, rstrip.
  rewrite filter_reverse, filter_lstrip, <- filter_reverse, reverse_involutive.
  apply filter_lstrip.
Qed.

Lemma filter_re_sub_char pat text :
  filter P (re_sub_char pat text) = filter (λ c, P c ∧ c ≠ pat) text.
Proof using P_not_space.
  assert (¬ P " ") as Hsp by (by apply P_not_space).
  induction text as [|x text IH]; [done|].
  unfold re_sub_char in *. rewrite fmap_cons. case_decide as Hx.
  - subst. rewrite filter_cons_False by done.
    by rewrite filter_cons_False by (by intros [_ ?]).
  - destruct (decide (P x)).
    + rewrite !filter_cons_True by done. by rewrite IH.
    + rewrite (filter_cons_False P) by done.
      by rewrite filter_cons_False by (by intros [? _]).
Qed.

Lemma filter_legalize (text : list ascii) :
  filter P (legalize <$> text) = filter (λ c, c ∈ legal_set ∧ P c) text.
Proof using P_not_space.
  assert (¬ P " ") as Hsp by (by apply P_not_space).
  induction text as [|x text IH]; [done|].
  rewrite fmap_cons. unfold legalize at 1. case_decide as Hx.
  - destruct (decide (P x)).
    + rewrite !filter_cons_True by done. by rewrite IH.
    + rewrite (filter_cons_False P) by done.
      by rewrite filter_cons_False by (by intros [_ ?]).
  - rewrite filter_cons_False by done.
    by rewrite filter_cons_False by (by intros [? _]).
Qed.
End filter_content.

Lemma filter_ext_in {A} (P Q : A → Prop) `{!∀ x, Decision (P x)}
    `{!∀ x, Decision (Q x)} (l : list A) :
  (∀ x, x ∈ l → (P x ↔ Q x)) → filter P l = filter Q l.
Proof.
  induction l as [|x l IH]; intros Hext; [done|].
  assert (filter P l = filter Q l) as Htl.
  { apply IH. intros y Hy. apply Hext. by right. }
  destruct (decide (P x)) as [HP|HP].
  - rewrite !filter_cons_True; [by rewrite Htl| |done]. apply Hext; [by left|done].
  - rewrite !filter_cons_False; [done| |done]. intros HQ. apply HP, Hext; [by left|done].
Qed.

(** X3. Normalisation neither drops nor reorders content: the characters of
    the normalised body that are not spaces are, in order, the lower-cased
    characters of the raw text that are legal, not whitespace and neither
    [<] nor [>]. *)
Theorem normalize_keeps_content (text : list ascii) :
  ∃ legal b,
    legal_characters = Ok legal ∧
    normalize text = Ok ("<" :: b ++ [">"]) ∧
    filter (λ c, c ≠ " ") b
    = filter (λ c, c ∈ legal ∧ (c ∉ whitespace) ∧ c ≠ "<" ∧ c ≠ ">")
        (lower <$> text).
Proof.
  exists legal_set, (body text).
  split; [apply legal_characters_ok|]. split; [apply normalize_ok|].
  assert (Hsp : ∀ c, isspace c = true → ¬ isspace c = false) by (intros c ->; done).
  assert (Hsp' : ∀ c, isspace c = true → ¬ (isspace c = false ∧ c ≠ ">")).
  { intros c -> [? _]. done. }
  assert (Hsp'' : ∀ c, isspace c = true →
                       ¬ ((isspace c = false ∧ c ≠ ">") ∧ c ≠ "<")).
  { intros c -> [[? _] _]. done. }
  rewrite (filter_ext_in _ (λ c, isspace c = false) (body text)).
  - unfold body.
    rewrite (filter_re_sub_char _ Hsp), (filter_re_sub_char _ Hsp').
    unfold cleaned.
    rewrite (filter_strip _ Hsp''), (filter_sub_space_runs _ Hsp'').
    rewrite (filter_legalize _ Hsp'').
    apply filter_ext_in. intros c _. unfold isspace.
    rewrite bool_decide_eq_false. tauto.
  - intros c Hc. split.
    + intros Hne. destruct (isspace c) eqn:Hs; [|done].
      assert (c ∈ normalized text) as Hn.
      { unfold normalized. rewrite elem_of_cons, elem_of_app. right. by left. }
      apply elem_of_normalized_strong in Hn as [_ Hn]. by apply Hn in Hs.
    + intros Hs ->. by rewrite isspace_space in Hs.
Qed.

(** ** Texts that normalise alike *)

Lemma isspace_lower x : isspace x = true → lower x = x.
Proof.
  intros Hx. apply lower_fixed. intros Hup. revert Hx.
  destruct x as [[] [] [] [] [] [] [] []]; first [done | exfalso; revert Hup;
    apply (bool_decide_unpack _); vm_compute; exact I].
Qed.

Lemma blank_isspace x : blank x → isspace (legalize (lower x)) = true.
Proof.
  unfold legalize. intros [Hx|Hx].
  - rewrite (isspace_lower x Hx). by case_decide.
  - by rewrite decide_False.
Qed.

Lemma sub_space_runs_blank b (text1 text2 : list ascii) :
  Forall2 (λ x y, lower x = lower y ∨ (blank x ∧ blank y)) text1 text2 →
  sub_space_runs b (legalize <$> (lower <$> text1))
  = sub_space_runs b (legalize <$> (lower <$> text2)).
Proof.
  intros Hall. revert b.
  induction Hall as [|x y text1 text2 Hxy _ IH]; intros b; [done|].
  rewrite !fmap_cons. cbn [sub_space_runs].
  destruct Hxy as [->|[Hx Hy]].
  - destruct (isspace (legalize (lower y))); by rewrite IH.
  - rewrite (blank_isspace x Hx), (blank_isspace y Hy). by rewrite IH.
Qed.

(** X4. Case, the kind of whitespace and the value of an illegal byte do
    not matter: two raw texts of which the characters agree pairwise up to
    case, or are pairwise whitespace or illegal, are normalised to the same
    text. *)
Theorem normalize_insensitive (text1 text2 : list ascii) :
  Forall2 (λ x y, lower x = lower y ∨ (blank x ∧ blank y)) text1 text2 →
  normalize text1 = normalize text2.
Proof.
  intros Hall. rewrite !normalize_ok. unfold normalized, body, cleaned.
  by rewrite (sub_space_runs_blank false text1 text2).
Qed.

Lemma normalize_insensitive_witness :
  normalize (str "Hello World") = normalize ["h"; "E"; "L"; "l"; "O"; "009"; "w"; "o"; "r"; "l"; "d"].
Proof.
  apply (normalize_insensitive (str "Hello World")).
  repeat (apply Forall2_cons; split;
          [first [left; reflexivity | right; split; left; reflexivity]|]).
  apply Forall2_nil_2.
Defined.

(** ** Normalising twice *)

Lemma sub_space_runs_snoc b text x :
  isspace x = false →
  sub_space_runs b (text ++ [x]) = sub_space_runs b text ++ [x].
Proof.
  intros Hx. revert b. induction text as [|y text IH]; intros b; simpl.
  - by rewrite Hx.
  - destruct (isspace y); rewrite IH; [by rewrite app_assoc|done].
Qed.

Lemma lstrip_cons x text : isspace x = false → lstrip (x :: text) = x :: text.
Proof. intros Hx. simpl. by rewrite Hx. Qed.

Lemma strip_between x y text :
  isspace x = false → isspace y = false →
  strip (x :: text ++ [y]) = x :: text ++ [y].
Proof.
  intros Hx Hy. unfold strip, rstrip. rewrite (lstrip_cons x) by done.
  rewrite app_comm_cons, reverse_snoc, (lstrip_cons y) by done.
  by rewrite <- reverse_snoc, reverse_involutive.
Qed.

Lemma normalized_fixed text :
  legalize <$> (lower <$> normalized text) = normalized text.
Proof.
  rewrite <- list_fmap_compose.
  rewrite <- (list_fmap_id (normalized text)) at 2.
  apply list_fmap_ext. intros i x Hx%list_elem_of_lookup_2. simpl.
  pose proof (elem_of_normalized _ _ Hx) as Hlegal.
  apply elem_of_normalized_strong in Hx as [Hup _].
  rewrite (lower_fixed x Hup). unfold legalize. by rewrite decide_True.
Qed.

(** X5. Normalisation is to be applied once: on a text that is already
    normalised the old sentinels are taken for content and become spaces,
    so that the result has a space next to both of its sentinels. *)
Theorem normalize_twice (text : list ascii) :
  ∃ n b,
    normalize text = Ok n ∧
    normalize n = Ok ("<" :: " " :: b ++ [" "; ">"]).
Proof.
  exists (normalized text).
  exists (re_sub_char ">" (re_sub_char "<" (sub_space_runs false (body text)))).
  split; [apply normalize_ok|]. rewrite normalize_ok. f_equal.
  unfold normalized at 1. unfold body at 1. unfold cleaned.
  rewrite normalized_fixed. unfold normalized.
  cbn [sub_space_runs]. change (isspace "<") with false. cbn iota.
  rewrite sub_space_runs_snoc by done.
  rewrite strip_between by done.
  unfold re_sub_char. rewrite !fmap_cons, !fmap_app. simpl.
  by rewrite <- app_assoc.
Qed.

(** ** Texts that are left as they are *)

Lemma sub_space_runs_collapsed b text :
  (∀ c, c ∈ text → isspace c = true → c = " ") →
  has_space_run text = false →
  (b = true → head text ≠ Some " ") →
  sub_space_runs b text = text.
Proof.
  revert b. induction text as [|x text IH]; intros b Hws Hrun Hhd; [done|].
  apply has_space_run_cons in Hrun as [Hxx Hrun].
  cbn [sub_space_runs]. destruct (isspace x) eqn:Hx.
  - assert (x = " ") as -> by (apply Hws; [by left|done]).
    destruct b; [by destruct Hhd|]. cbn [app]. f_equal.
    apply IH; [intros c Hc; apply Hws; by right|done|].
    intros _ Hsp. by apply Hxx.
  - f_equal. apply IH; [intros c Hc; apply Hws; by right|done|done].
Qed.

Lemma lstrip_fixed text : head text ≠ Some " " →
  (∀ c, c ∈ text → isspace c = true → c = " ") → lstrip text = text.
Proof.
  intros Hhd Hws. destruct text as [|x text]; [done|]. simpl.
  destruct (isspace x) eqn:Hx; [|done].
  exfalso. apply Hhd. simpl. f_equal. apply Hws; [by left|done].
Qed.

Lemma strip_fixed text :
  (∀ c, c ∈ text → isspace c = true → c = " ") →
  head text ≠ Some " " → last text ≠ Some " " → strip text = text.
Proof.
  intros Hws Hhd Hlast. unfold strip, rstrip.
  rewrite (lstrip_fixed text) by done.
  rewrite lstrip_fixed; [apply reverse_involutive| |].
  - by rewrite head_reverse.
  - intros c Hc. rewrite elem_of_reverse in Hc. exact (Hws c Hc).
Qed.

(** X16. A text that is already clean is only wrapped: when every character
    is legal, not upper case, not [<] or [>] and no whitespace but the
    space, and the spaces are single and not at an end, the normalised text
    is the raw text between the two sentinels. *)
Theorem normalize_clean_text (text : list ascii) (legal : gset ascii) :
  legal_characters = Ok legal →
  (∀ c, c ∈ text →
     c ∈ legal ∧ (c ∉ uppercase) ∧ (c ∈ whitespace → c = " ") ∧
     c ≠ "<" ∧ c ≠ ">") →
  space_collapsed text →
  normalize text = Ok ("<" :: text ++ [">"]).
Proof.
  rewrite legal_characters_ok. intros [= <-] Hclean (Hrun & Hhd & Hlast).
  rewrite normalize_ok. unfold normalized, body, cleaned. do 3 f_equal.
  assert (legalize <$> (lower <$> text) = text) as ->.
  { rewrite <- list_fmap_compose. rewrite <- (list_fmap_id text) at 2.
    apply list_fmap_ext. intros i c Hc%list_elem_of_lookup_2. simpl.
    destruct (Hclean c Hc) as (Hl & Hup & _).
    rewrite (lower_fixed c Hup). unfold legalize. by rewrite decide_True. }
  assert (Hws : ∀ c, c ∈ text → isspace c = true → c = " ").
  { intros c Hc Hsp. destruct (Hclean c Hc) as (_ & _ & Hw & _).
    apply Hw. unfold isspace in Hsp. by apply bool_decide_eq_true in Hsp. }
  rewrite sub_space_runs_collapsed by done.
  rewrite strip_fixed by done.
  rewrite (re_sub_char_absent "<").
  - apply re_sub_char_absent. intros Hin. by destruct (Hclean _ Hin) as (_ & _ & _ & _ & ?).
  - intros Hin. by destruct (Hclean _ Hin) as (_ & _ & _ & ? & _).
Qed.

Lemma normalize_clean_text_witness :
  normalize (str "hello, world!") = Ok ("<" :: str "hello, world!" ++ [">"]).
Proof.
  apply (normalize_clean_text (str "hello, world!") legal_set).
  - vm_compute. reflexivity.
  - apply Forall_forall. apply (bool_decide_unpack _). vm_compute. exact I.
  - apply (bool_decide_unpack _). vm_compute. exact I.
Defined.

(** ** Decoding *)

(** X6. Decoding inverts encoding on normalised texts: looking the indices
    of a normalised text up in [get_indices_char()] gives the text back. *)
Theorem decode_encode (text : list ascii) (g : globals) :
  cache_ok g →
  ∃ ci ic g1 g2 n indices,
    get_char_indices g = (Ok ci, g1) ∧
    get_indices_char g1 = (Ok ic, g2) ∧
    normalize text = Ok n ∧
    map_result (getitem ci) n = Ok indices ∧
    map_result (getitem ic) indices = Ok n.
Proof.
  intros Hg.
  destruct (get_char_indices_run g Hg) as (g1 & Hci & Hg1).
  destruct (get_indices_char_run g1 Hg1) as (g2 & Hic & _).
  exists char_indices_dict, indices_char_dict, g1, g2.
  exists (normalized text), (encoded text).
  do 2 (split; [done|]). split; [apply normalize_ok|].
  split; [apply encode_normalized|].
  unfold encoded.
  assert (Hdec : ∀ l : list ascii, (∀ c, c ∈ l → c ∈ legal_set) →
            map_result (getitem indices_char_dict) (index <$> l) = Ok l).
  { induction l as [|c l IH]; intros Hl; [done|].
    rewrite fmap_cons. cbn [map_result]. unfold getitem at 1.
    rewrite index_lookup by (apply Hl; by left). cbn [result_bind].
    rewrite IH by (intros ? ?; apply Hl; by right). done. }
  apply Hdec. intros c. apply elem_of_normalized.
Qed.

Lemma decode_encode_witness :
  ∃ ci ic g1 g2 n indices,
    get_char_indices init_globals = (Ok ci, g1) ∧
    get_indices_char g1 = (Ok ic, g2) ∧
    normalize (str "Hi there") = Ok n ∧
    map_result (getitem ci) n = Ok indices ∧
    map_result (getitem ic) indices = Ok n.
Proof.
  apply (decode_encode (str "Hi there") init_globals).
  split; intros d Hd; discriminate Hd.
Defined.

(** X7. The dictionaries are defined on the vocabulary only: an illegal
    character has no index, and no index from the vocabulary size on has a
    character, so that the padding value cannot be decoded. *)
Theorem lookup_outside_vocabulary (g : globals) :
  cache_ok g →
  ∃ legal ci ic g1 g2,
    legal_characters = Ok legal ∧
    get_char_indices g = (Ok ci, g1) ∧
    get_indices_char g1 = (Ok ic, g2) ∧
    (∀ c, getitem ci c = Raise KeyError ↔ c ∉ legal) ∧
    (∀ i, getitem ic i = Raise KeyError ↔ size ci ≤ i) ∧
    (∀ value, padding_value ic = Ok value → getitem ic value = Raise KeyError).
Proof.
  intros Hg.
  destruct (get_char_indices_run g Hg) as (g1 & Hci & Hg1).
  destruct (get_indices_char_run g1 Hg1) as (g2 & Hic & _).
  exists legal_set, char_indices_dict, indices_char_dict, g1, g2.
  split; [apply legal_characters_ok|]. do 2 (split; [done|]).
  rewrite char_indices_size.
  assert (Hdec : ∀ i, getitem indices_char_dict i = Raise KeyError ↔ 98 ≤ i).
  { intros i. unfold getitem. rewrite indices_char_lookup, <- vocab_length.
    destruct (vocab !! i) as [c|] eqn:Hi.
    - apply lookup_lt_Some in Hi. split; [done|lia].
    - apply lookup_ge_None in Hi. done. }
  split; [|split; [done|]].
  - intros c. unfold getitem.
    destruct (char_indices_dict !! c) as [i|] eqn:Hc.
    + split; [done|]. intros Hnot. exfalso. apply Hnot.
      apply char_indices_lookup in Hc.
      by apply list_elem_of_lookup_2, elem_of_vocab in Hc.
    + split; [|done]. intros _ Hin.
      apply char_indices_legal in Hin as [i Hi]. congruence.
  - intros value. rewrite padding_value_ok. intros [= <-]. by apply Hdec.
Qed.

Lemma lookup_outside_vocabulary_witness :
  ∃ legal ci ic g1 g2,
    legal_characters = Ok legal ∧
    get_char_indices init_globals = (Ok ci, g1) ∧
    get_indices_char g1 = (Ok ic, g2) ∧
    (∀ c, getitem ci c = Raise KeyError ↔ c ∉ legal) ∧
    (∀ i, getitem ic i = Raise KeyError ↔ size ci ≤ i) ∧
    (∀ value, padding_value ic = Ok value → getitem ic value = Raise KeyError).
Proof.
  apply (lookup_outside_vocabulary init_globals).
  split; intros d Hd; discriminate Hd.
Defined.

(** ** The rows of the matrix *)

Lemma encoded_index_lt text i : i ∈ encoded text → i < 98.
Proof.
  unfold encoded. intros (c & -> & Hc)%list_elem_of_fmap.
  by apply index_lt, (elem_of_normalized c text).
Qed.

Lemma encoded_length text : 2 ≤ length (encoded text).
Proof.
  unfold encoded, normalized. rewrite length_fmap. simpl.
  rewrite length_app. simpl. lia.
Qed.

(** X8. For a width [L >= 1] every row of the matrix is a possibly empty run
    of the padding value followed by at least one character index, and every
    character index is smaller than the padding value: the padding is in
    front, and can be told from the content. *)
Theorem rows_padding_then_content (texts : list (list ascii))
    (y_list : option (list pyval)) (L : nat) (g : globals) :
  1 ≤ L → cache_ok g →
  ∃ x y g' ic g'' value,
    gen_x_y texts y_list L g = (Ok (x, y), g') ∧
    get_indices_char g' = (Ok ic, g'') ∧
    padding_value ic = Ok value ∧
    ∀ row, row ∈ x →
      ∃ k content,
        row = replicate k value ++ content ∧
        content ≠ [] ∧
        ∀ i, i ∈ content → i < value.
Proof.
  intros Hpos Hg.
  destruct (gen_x_y_returns texts y_list L g Hpos Hg) as (g' & Hg' & ->).
  destruct (get_indices_char_run g' Hg') as (g'' & Hic & _).
  eexists _, _, g', indices_char_dict, g'', 98.
  split; [reflexivity|]. split; [done|]. split; [apply padding_value_ok|].
  intros row (s & -> & (text & -> & _)%list_elem_of_fmap)%list_elem_of_fmap.
  unfold aligned. eexists _, _. split; [reflexivity|]. split.
  - intros Hnil%(f_equal length). rewrite length_drop in Hnil. simpl in Hnil.
    pose proof (encoded_length text). lia.
  - intros i Hi. apply (encoded_index_lt text).
    by apply (subseteq_drop (length (encoded text) - L)).
Qed.

Lemma rows_padding_then_content_witness :
  ∃ x y g' ic g'' value,
    gen_x_y [str "Hi"; str "Hello, World!"] None 10 init_globals
    = (Ok (x, y), g') ∧
    get_indices_char g' = (Ok ic, g'') ∧
    padding_value ic = Ok value ∧
    ∀ row, row ∈ x →
      ∃ k content,
        row = replicate k value ++ content ∧
        content ≠ [] ∧
        ∀ i, i ∈ content → i < value.
Proof.
  apply (rows_padding_then_content [str "Hi"; str "Hello, World!"] None 10
           init_globals).
  - lia.
  - split; intros d Hd; discriminate Hd.
Defined.

(** X9. The texts are encoded one by one: the matrix of a batch that is the
    concatenation of two batches is the matrix of the first followed by the
    matrix of the second. *)
Theorem gen_x_y_app (texts1 texts2 : list (list ascii))
    (y_list : option (list pyval)) (L : nat) (g : globals) :
  1 ≤ L → cache_ok g →
  ∃ x1 x2 y g1 g2 g3,
    gen_x_y texts1 y_list L g = (Ok (x1, y), g1) ∧
    gen_x_y texts2 y_list L g = (Ok (x2, y), g2) ∧
    gen_x_y (texts1 ++ texts2) y_list L g = (Ok (x1 ++ x2, y), g3).
Proof.
  intros Hpos Hg.
  destruct (gen_x_y_returns texts1 y_list L g Hpos Hg) as (g1 & _ & ->).
  destruct (gen_x_y_returns texts2 y_list L g Hpos Hg) as (g2 & _ & ->).
  destruct (gen_x_y_returns (texts1 ++ texts2) y_list L g Hpos Hg) as (g3 & _ & ->).
  eexists _, _, _, g1, g2, g3. do 2 (split; [reflexivity|]).
  by rewrite !fmap_app.
Qed.

Lemma gen_x_y_app_witness :
  ∃ x1 x2 y g1 g2 g3,
    gen_x_y [str "a"] None 4 init_globals = (Ok (x1, y), g1) ∧
    gen_x_y [str "b"; str "c"] None 4 init_globals = (Ok (x2, y), g2) ∧
    gen_x_y ([str "a"] ++ [str "b"; str "c"]) None 4 init_globals
    = (Ok (x1 ++ x2, y), g3).
Proof.
  apply (gen_x_y_app [str "a"] [str "b"; str "c"] None 4 init_globals).
  - lia.
  - split; intros d Hd; discriminate Hd.
Defined.

(** ** The caches *)

Lemma get_char_indices_fills g :
  cache_ok g →
  get_char_indices g
  = (Ok char_indices_dict, Globals (Some char_indices_dict) (INDICES_CHAR g)).
Proof.
  intros [Hc _]. unfold get_char_indices.
  destruct g as [[d|] ic]; cbn [CHAR_INDICES INDICES_CHAR] in *.
  - by rewrite (Hc d eq_refl).
  - by rewrite sorted_legal_characters_ok, char_indices_dict_eq.
Qed.

Lemma get_indices_char_fills g :
  cache_ok g →
  get_indices_char g
  = (Ok indices_char_dict, Globals (CHAR_INDICES g) (Some indices_char_dict)).
Proof.
  intros [_ Hi]. unfold get_indices_char.
  destruct g as [ci [d|]]; cbn [CHAR_INDICES INDICES_CHAR] in *.
  - by rewrite (Hi d eq_refl).
  - by rewrite sorted_legal_characters_ok, indices_char_dict_eq.
Qed.

Lemma filled_ok : cache_ok (Globals (Some char_indices_dict) (Some indices_char_dict)).
Proof.
  split; intros d Hd; cbn [CHAR_INDICES INDICES_CHAR] in Hd;
    symmetry; exact (Some_inj _ _ Hd).
Qed.

Lemma gen_x_y_fills texts y_list L g :
  cache_ok g →
  gen_x_y texts y_list L g
  = (do x <- pad_sequences (encoded <$> texts) L 98;
     Ok (x, numpy_array_bool y_list),
     Globals (Some char_indices_dict) (Some indices_char_dict)).
Proof.
  intros Hg. unfold gen_x_y, M_bind, M_lift, M_ret.
  rewrite sorted_legal_characters_ok.
  rewrite (get_char_indices_fills g Hg).
  rewrite get_indices_char_fills.
  - cbn [CHAR_INDICES].
    rewrite gen_x_y_loop_ok, padding_value_ok. cbn [snd app].
    by destruct (pad_sequences (encoded <$> texts) L 98).
  - destruct Hg as [_ Hi]. split; [|exact Hi].
    intros d Hd. cbn [CHAR_INDICES] in Hd. symmetry. exact (Some_inj _ _ Hd).
Qed.

(** X10. The result of [gen_x_y] does not depend on whether the caches are
    filled: a call from any state whose caches are empty or filled by the
    getters gives what the first call after import gives, leaves both
    caches filled, and a repeated call gives the same again. *)
Theorem gen_x_y_cache_independent (texts : list (list ascii))
    (y_list : option (list pyval)) (L : nat) (g : globals) :
  cache_ok g →
  ∃ r g',
    gen_x_y texts y_list L g = (r, g') ∧
    gen_x_y texts y_list L init_globals = (r, g') ∧
    gen_x_y texts y_list L g' = (r, g') ∧
    is_Some (CHAR_INDICES g') ∧ is_Some (INDICES_CHAR g').
Proof.
  intros Hg. eexists _, _.
  split; [by apply gen_x_y_fills|].
  split; [by apply gen_x_y_fills, init_globals_ok|].
  split; [by apply gen_x_y_fills, filled_ok|].
  split; by eexists.
Qed.

Lemma gen_x_y_cache_independent_witness :
  ∃ r g',
    gen_x_y [str "Hi"] None 0 init_globals = (r, g') ∧
    gen_x_y [str "Hi"] None 0 init_globals = (r, g') ∧
    gen_x_y [str "Hi"] None 0 g' = (r, g') ∧
    is_Some (CHAR_INDICES g') ∧ is_Some (INDICES_CHAR g').
Proof.
  apply (gen_x_y_cache_independent [str "Hi"] None 0 init_globals).
  split; intros d Hd; discriminate Hd.
Defined.

(** X11. The getters never fail and never replace a filled cache, whatever
    it holds: each returns the cached dictionary if there is one, fills its
    own cache otherwise, leaves the other cache alone, and returns the same
    dictionary without a further change of state when called again. *)
Theorem getters_cache_once (g : globals) :
  (∃ d g',
     get_char_indices g = (Ok d, g') ∧
     (∀ d0, CHAR_INDICES g = Some d0 → d = d0 ∧ g' = g) ∧
     CHAR_INDICES g' = Some d ∧
     INDICES_CHAR g' = INDICES_CHAR g ∧
     get_char_indices g' = (Ok d, g')) ∧
  (∃ d g',
     get_indices_char g = (Ok d, g') ∧
     (∀ d0, INDICES_CHAR g = Some d0 → d = d0 ∧ g' = g) ∧
     INDICES_CHAR g' = Some d ∧
     CHAR_INDICES g' = CHAR_INDICES g ∧
     get_indices_char g' = (Ok d, g')).
Proof.
  split.
  - unfold get_char_indices. destruct g as [[d|] ic]; cbn [CHAR_INDICES INDICES_CHAR].
    + exists d. eexists. split; [reflexivity|].
      split; [by intros d0 [= <-]|]. done.
    + rewrite sorted_legal_characters_ok.
      eexists _, _. split; [reflexivity|]. split; [by intros d0 [=]|]. done.
  - unfold get_indices_char. destruct g as [ci [d|]]; cbn [CHAR_INDICES INDICES_CHAR].
    + exists d. eexists. split; [reflexivity|].
      split; [by intros d0 [= <-]|]. done.
    + rewrite sorted_legal_characters_ok.
      eexists _, _. split; [reflexivity|]. split; [by intros d0 [=]|]. done.
Qed.

(** ** The legal characters *)

(** X12. The legal characters are the 95 printable ASCII characters, from
    the space to the tilde, and the tab, the vertical tab and the form feed;
    [<] and [>] are among them already before they are added, and removing
    the newline and the carriage return never fails. *)
Theorem legal_characters_are_printable_ascii :
  ∃ legal,
    legal_characters = Ok legal ∧
    size legal = 98 ∧
    ∀ c, c ∈ legal ↔
         32 ≤ code c ≤ 126 ∨ c = "009" ∨ c = "011" ∨ c = "012".
Proof.
  exists legal_set. split; [apply legal_characters_ok|].
  split; [apply legal_set_size|]. intros c.
  assert (bool_decide (c ∈ legal_set)
          = bool_decide (32 ≤ code c ≤ 126 ∨ c = "009" ∨ c = "011" ∨ c = "012"))
    as Heq.
  { destruct c as [[] [] [] [] [] [] [] []]; vm_compute; reflexivity. }
  split; intros Hc.
  - apply (bool_decide_unpack _). rewrite <- Heq. by apply bool_decide_pack.
  - apply (bool_decide_unpack _). rewrite Heq. by apply bool_decide_pack.
Qed.

(** ** The configuration *)




(** ** The batch name *)


